(** * The warnable catalog of package [health] (health/warnings.go)

    A shallow embedding of the package-level warnable definitions, of the
    part of [fmt.Sprintf] their [Text] functions use, and of the engine
    that stores, suppresses, orders and aggregates active warnings. *)

From Stdlib Require Import String Ascii.
From stdpp Require Import gmap strings list sorting fin_maps finite relations.

Local Open Scope string_scope.

(** ** Strings *)

Module Strings.

(** [strings.Contains(s, substr)]: [substr] occurs in [s] at some offset. *)
Fixpoint Contains (s substr : string) : bool :=
  String.prefix substr s ||
  match s with
  | EmptyString => false
  | String _ s' => Contains s' substr
  end.

(** Lower-case and upper-case hexadecimal digits, as [%x] and [%X] print
    the bytes of a string. *)
Definition hexDigit (upper : bool) (n : N) : ascii :=
  if (n <? 10)%N then ascii_of_N (48 + n)
  else ascii_of_N ((if upper then 55 else 87) + n).

Fixpoint hex (upper : bool) (s : string) : string :=
  match s with
  | EmptyString => EmptyString
  | String c s' =>
      let n := N_of_ascii c in
      String (hexDigit upper (n / 16)) (String (hexDigit upper (n mod 16)) (hex upper s'))
  end.

(** No byte of [s] is the percent sign. *)
Fixpoint noPercent (s : string) : bool :=
  match s with
  | EmptyString => true
  | String c s' => negb (Ascii.eqb c "%") && noPercent s'
  end.

(** Every byte of [s] satisfies [p]. *)
Fixpoint allBytes (p : ascii → bool) (s : string) : bool :=
  match s with
  | EmptyString => true
  | String c s' => p c && allBytes p s'
  end.

(** A lower-case letter, a digit or a hyphen. *)
Definition isKebab (c : ascii) : bool :=
  let n := N_of_ascii c in
  ((97 <=? n) && (n <=? 122) || (48 <=? n) && (n <=? 57) || (n =? 45))%N.

End Strings.

(** ** fmt.Sprintf on string operands

    Every operand the catalog passes to [fmt.Sprintf] is a Go [string] (an
    [Args] value).  The model reads the format left to right as Go does:
    a verb consumes the next operand, a verb without operand prints the
    [%!v(MISSING)] marker, a verb that strings do not support prints
    [%!v(string=...)], operands left over are reported by [%!(EXTRA ...)].
    Flags, width, precision and argument indexes are not modelled (the
    catalog uses none); [%q] is [strconv.Quote], which depends on the
    Unicode tables of the Go runtime and is a parameter here. *)

Module fmt.
Section Sprintf.
(** [strconv.Quote]. *)
Variable Quote : string → string.

Definition badVerb (c : ascii) (x : string) : string :=
  "%!" +:+ String c ("(string=" +:+ x +:+ ")").

(** One verb applied to one string operand. *)
Definition verb (c : ascii) (x : string) : string :=
  if decide (c = "s"%char) then x
  else if decide (c = "v"%char) then x
  else if decide (c = "q"%char) then Quote x
  else if decide (c = "x"%char) then Strings.hex false x
  else if decide (c = "X"%char) then Strings.hex true x
  else if decide (c = "T"%char) then "string"
  else badVerb c x.

Fixpoint extraList (a : list string) : string :=
  match a with
  | [] => ""
  | [x] => "string=" +:+ x
  | x :: a' => "string=" +:+ x +:+ ", " +:+ extraList a'
  end.

Definition extra (a : list string) : string :=
  match a with
  | [] => ""
  | _ => "%!(EXTRA " +:+ extraList a +:+ ")"
  end.

Fixpoint Sprintf (format : string) (a : list string) : string :=
  match format with
  | EmptyString => extra a
  | String c rest =>
      if decide (c = "%"%char) then
        match rest with
        | EmptyString => "%!(NOVERB)" +:+ extra a
        | String v rest' =>
            if decide (v = "%"%char) then String "%" (Sprintf rest' a)
            else
              match a with
              | [] => "%!" +:+ String v ("(MISSING)" +:+ Sprintf rest' [])
              | x :: a' => verb v x +:+ Sprintf rest' a'
              end
        end
      else String c (Sprintf rest a)
  end.
End Sprintf.

(** [strconv.Quote] on a string of printable ASCII characters: the string
    between double quotes, with a backslash before each double quote and
    each backslash.  It stands for the parameter [Quote] where a concrete
    function is needed; other bytes are left as they are. *)
Definition dquote : ascii := ascii_of_nat 34.
Definition backslash : ascii := ascii_of_nat 92.

Fixpoint escape (s : string) : string :=
  match s with
  | EmptyString => EmptyString
  | String c s' =>
      if decide (c = dquote) then String backslash (String c (escape s'))
      else if decide (c = backslash) then String backslash (String c (escape s'))
      else String c (escape s')
  end.

Definition QuoteASCII (s : string) : string :=
  String dquote (escape s +:+ String dquote EmptyString).

(** The characters that follow a percent sign in a format, in order: its
    verbs, with a percent sign itself for [%%] and for a trailing [%]. *)
Fixpoint verbs (format : string) : list ascii :=
  match format with
  | EmptyString => []
  | String c rest =>
      if decide (c = "%"%char) then
        match rest with
        | EmptyString => ["%"%char]
        | String v rest' => v :: verbs rest'
        end
      else verbs rest
  end.

(** The verbs the catalog applies to its string operands. *)
Definition plainVerb (c : ascii) : bool :=
  bool_decide (c = "s"%char ∨ c = "v"%char).

Definition stringVerb (c : ascii) : bool :=
  plainVerb c || bool_decide (c = "q"%char).
End fmt.

(** ** Types of package [health]

    warnings.go uses the types [Arg], [Args], [Severity] and [Warnable],
    the [Arg*] and [Severity*] constants and the function [StaticMessage];
    their declarations are in files of the package outside this one. *)

Module health.

(** [type Arg string] and [type Args map[Arg]string]. *)
Abbreviation Arg := string (only parsing).
Abbreviation Args := (gmap string string) (only parsing).

(** Modelled from the spec: the values of the [Arg*] constants, which
    warnings.go only names.  The spec lists the key space as
    current-version, available-version, error-text, duration,
    relay-region-name, relay-region-id, server-name, function-name. *)
Definition ArgCurrentVersion : Arg := "current-version".
Definition ArgAvailableVersion : Arg := "available-version".
Definition ArgError : Arg := "error-text".
Definition ArgDuration : Arg := "duration".
Definition ArgDERPRegionName : Arg := "relay-region-name".
Definition ArgDERPRegionID : Arg := "relay-region-id".
Definition ArgServerName : Arg := "server-name".
Definition ArgMagicsockFunctionName : Arg := "function-name".

(** [args[k]]: indexing a Go map yields the zero value of the element
    type, the empty string, for a key that is absent (also on a nil map). *)
Definition index (args : Args) (k : Arg) : string := default "" (args !! k).

Notation "args .[ k ]" := (index args k) (at level 1, format "args .[ k ]").

(** Modelled from the spec: [Severity], an ordered value from
    {Low, Medium, High}; warnings.go names the three constants. *)
Inductive severity := SeverityLow | SeverityMedium | SeverityHigh.

Global Instance severity_eq_dec : EqDecision severity.
Proof. solve_decision. Defined.

Definition rank (s : severity) : nat :=
  match s with SeverityLow => 1 | SeverityMedium => 2 | SeverityHigh => 3 end.

(** [type Warnable struct], with the fields warnings.go sets.  [ptr] is
    the type of [*Warnable] values: [DependsOn] holds pointers and the
    engine identifies a warnable by its pointer.  [Text] is a Go func
    value, which may be nil ([None]). *)
Record Warnable (ptr : Type) := {
  Code : string;
  Title : string;
  Severity : severity;
  Text : option (Args → string);
  DependsOn : list ptr;
  ImpactsConnectivity : bool
}.
Arguments Code {ptr} _.
Arguments Title {ptr} _.
Arguments Severity {ptr} _.
Arguments Text {ptr} _.
Arguments DependsOn {ptr} _.
Arguments ImpactsConnectivity {ptr} _.

(** [StaticMessage(s)]: the func that returns [s] whatever its argument. *)
Definition StaticMessage (s : string) : option (Args → string) :=
  Some (λ _, s).

(** The call [w.Text(args)]; calling a nil func panics ([None]). *)
Definition callText {ptr} (w : Warnable ptr) (args : Args) : option string :=
  f ← Text w; Some (f args).

(** ** The catalog (warnings.go)

    Each package-level variable of warnings.go holds the [*Warnable] that
    [Register] returned, which is the pointer it was given.  [handle] has
    one value per variable, in declaration order; [deref] is the struct
    the pointer points to. *)
Inductive handle :=
  | updateAvailableWarnable
  | securityUpdateAvailableWarnable
  | unstableWarnable
  | NetworkStatusWarnable
  | IPNStateWarnable
  | localLogWarnable
  | LoginStateWarnable
  | notInMapPollWarnable
  | noDERPHomeWarnable
  | noDERPConnectionWarnable
  | derpTimeoutWarnable
  | derpRegionErrorWarnable
  | noUDP4BindWarnable
  | mapResponseTimeoutWarnable
  | tlsConnectionFailedWarnable
  | magicsockReceiveFuncWarnable
  | testWarnable
  | applyDiskConfigWarnable
  | controlHealthWarnable.

Global Instance handle_eq_dec : EqDecision handle.
Proof. solve_decision. Defined.

(** The [Register] calls of warnings.go, in the order of the file. *)
Definition catalog : list handle :=
  [ updateAvailableWarnable; securityUpdateAvailableWarnable; unstableWarnable;
    NetworkStatusWarnable; IPNStateWarnable; localLogWarnable; LoginStateWarnable;
    notInMapPollWarnable; noDERPHomeWarnable; noDERPConnectionWarnable;
    derpTimeoutWarnable; derpRegionErrorWarnable; noUDP4BindWarnable;
    mapResponseTimeoutWarnable; tlsConnectionFailedWarnable;
    magicsockReceiveFuncWarnable; testWarnable; applyDiskConfigWarnable;
    controlHealthWarnable ].

Section Catalog.
(** [strconv.Quote], behind the [%q] of [tlsConnectionFailedWarnable]. *)
Variable Quote : string → string.

Local Abbreviation Sprintf := (fmt.Sprintf Quote).

Definition deref (h : handle) : Warnable handle :=
  match h with
  | updateAvailableWarnable => {|
      Code := "update-available";
      Title := "Update available";
      Severity := SeverityLow;
      Text := Some (λ args,
        Sprintf "An update from version %s to %s is available. Run `tailscale update` or `tailscale set --auto-update` to update." [args.[ArgCurrentVersion]; args.[ArgAvailableVersion]]);
      DependsOn := [];
      ImpactsConnectivity := false |}
  | securityUpdateAvailableWarnable => {|
      Code := "security-update-available";
      Title := "Security update available";
      Severity := SeverityHigh;
      Text := Some (λ args,
        Sprintf "An urgent security update from version %s to %s is available. Run `tailscale update` or `tailscale set --auto-update` to update now." [args.[ArgCurrentVersion]; args.[ArgAvailableVersion]]);
      DependsOn := [];
      ImpactsConnectivity := false |}
  | unstableWarnable => {|
      Code := "is-using-unstable-version";
      Title := "Using an unstable version";
      Severity := SeverityLow;
      Text := StaticMessage "This is an unstable version of Tailscale meant for testing and development purposes: please report any bugs to Tailscale.";
      DependsOn := [];
      ImpactsConnectivity := false |}
  | NetworkStatusWarnable => {|
      Code := "network-status";
      Title := "Network down";
      Severity := SeverityHigh;
      Text := StaticMessage "Tailscale cannot connect because the network is down. (No network interface is up.)";
      DependsOn := [];
      ImpactsConnectivity := true |}
  | IPNStateWarnable => {|
      Code := "wantrunning-false";
      Title := "Not connected to Tailscale";
      Severity := SeverityLow;
      Text := StaticMessage "Tailscale is stopped.";
      DependsOn := [];
      ImpactsConnectivity := false |}
  | localLogWarnable => {|
      Code := "local-log-config-error";
      Title := "Local log misconfiguration";
      Severity := SeverityLow;
      Text := Some (λ args,
        Sprintf "The local log is misconfigured: %v" [args.[ArgError]]);
      DependsOn := [];
      ImpactsConnectivity := false |}
  | LoginStateWarnable => {|
      Code := "login-state";
      Title := "Logged out";
      Severity := SeverityMedium;
      Text := Some (λ args,
        if negb (String.eqb args.[ArgError] "") then
          Sprintf "You are logged out. The last login error was: %v" [args.[ArgError]]
        else
          "You are logged out.");
      DependsOn := [];
      ImpactsConnectivity := false |}
  | notInMapPollWarnable => {|
      Code := "not-in-map-poll";
      Title := "Cannot connect to control server";
      Severity := SeverityMedium;
      DependsOn := [NetworkStatusWarnable];
      Text := StaticMessage "Cannot connect to the control server (not in map poll). Check your Internet connection.";
      ImpactsConnectivity := false |}
  | noDERPHomeWarnable => {|
      Code := "no-derp-home";
      Title := "No home relay server";
      Severity := SeverityHigh;
      DependsOn := [NetworkStatusWarnable];
      Text := StaticMessage "Tailscale could not connect to any relay server. Check your Internet connection.";
      ImpactsConnectivity := false |}
  | noDERPConnectionWarnable => {|
      Code := "no-derp-connection";
      Title := "Relay server unavailable";
      Severity := SeverityHigh;
      DependsOn := [NetworkStatusWarnable];
      Text := Some (λ args,
        let n := args.[ArgDERPRegionName] in
        if negb (String.eqb n "") then
          Sprintf "Tailscale could not connect to the '%s' relay server. Your Internet connection might be down, or the server might be temporarily unavailable." [n]
        else
          Sprintf "Tailscale could not connect to the relay server with ID '%s'. Your Internet connection might be down, or the server might be temporarily unavailable." [args.[ArgDERPRegionID]]);
      ImpactsConnectivity := false |}
  | derpTimeoutWarnable => {|
      Code := "derp-timed-out";
      Title := "Relay server timed out";
      Severity := SeverityMedium;
      DependsOn := [NetworkStatusWarnable];
      Text := Some (λ args,
        let n := args.[ArgDERPRegionName] in
        if negb (String.eqb n "") then
          Sprintf "Tailscale hasn't heard from the '%s' relay server in %v. The server might be temporarily unavailable, or your Internet connection might be down." [n; args.[ArgDuration]]
        else
          Sprintf "Tailscale hasn't heard from the home relay server (region ID '%v') in %v. The server might be temporarily unavailable, or your Internet connection might be down." [args.[ArgDERPRegionID]; args.[ArgDuration]]);
      ImpactsConnectivity := false |}
  | derpRegionErrorWarnable => {|
      Code := "derp-region-error";
      Title := "Relay server error";
      Severity := SeverityMedium;
      DependsOn := [NetworkStatusWarnable];
      Text := Some (λ args,
        Sprintf "The relay server #%v is reporting an issue: %v" [args.[ArgDERPRegionID]; args.[ArgError]]);
      ImpactsConnectivity := false |}
  | noUDP4BindWarnable => {|
      Code := "no-udp4-bind";
      Title := "Incoming connections may fail";
      Severity := SeverityHigh;
      DependsOn := [NetworkStatusWarnable];
      Text := StaticMessage "Tailscale couldn't listen for incoming UDP connections.";
      ImpactsConnectivity := true |}
  | mapResponseTimeoutWarnable => {|
      Code := "mapresponse-timeout";
      Title := "Network map response timeout";
      Severity := SeverityMedium;
      DependsOn := [NetworkStatusWarnable];
      Text := Some (λ args,
        Sprintf "Tailscale hasn't received a network map from the coordination server in %s." [args.[ArgDuration]]);
      ImpactsConnectivity := false |}
  | tlsConnectionFailedWarnable => {|
      Code := "tls-connection-failed";
      Title := "Encrypted connection failed";
      Severity := SeverityMedium;
      DependsOn := [NetworkStatusWarnable];
      Text := Some (λ args,
        Sprintf "Tailscale could not establish an encrypted connection with '%q': %v" [args.[ArgServerName]; args.[ArgError]]);
      ImpactsConnectivity := false |}
  | magicsockReceiveFuncWarnable => {|
      Code := "magicsock-receive-func-error";
      Title := "MagicSock function not running";
      Severity := SeverityMedium;
      Text := Some (λ args,
        Sprintf "The MagicSock function %s is not running. You might experience connectivity issues." [args.[ArgMagicsockFunctionName]]);
      DependsOn := [];
      ImpactsConnectivity := false |}
  | testWarnable => {|
      Code := "test-warnable";
      Title := "Test warnable";
      Severity := SeverityLow;
      Text := Some (λ args, args.[ArgError]);
      DependsOn := [];
      ImpactsConnectivity := false |}
  | applyDiskConfigWarnable => {|
      Code := "apply-disk-config";
      Title := "Could not apply configuration";
      Severity := SeverityMedium;
      Text := Some (λ args,
        Sprintf "An error occurred applying the Tailscale envknob configuration stored on disk: %v" [args.[ArgError]]);
      DependsOn := [];
      ImpactsConnectivity := false |}
  | controlHealthWarnable => {|
      Code := "control-health";
      Title := "Coordination server reports an issue";
      Severity := SeverityMedium;
      Text := Some (λ args,
        Sprintf "The coordination server is reporting an health issue: %v" [args.[ArgError]]);
      DependsOn := [];
      ImpactsConnectivity := false |}
  end.
End Catalog.

(** The [Args] keys the [Text] of each warnable indexes. *)
Definition keysRead (h : handle) : list Arg :=
  match h with
  | updateAvailableWarnable | securityUpdateAvailableWarnable =>
      [ArgCurrentVersion; ArgAvailableVersion]
  | localLogWarnable | LoginStateWarnable | testWarnable
  | applyDiskConfigWarnable | controlHealthWarnable => [ArgError]
  | noDERPConnectionWarnable => [ArgDERPRegionName; ArgDERPRegionID]
  | derpTimeoutWarnable => [ArgDERPRegionName; ArgDERPRegionID; ArgDuration]
  | derpRegionErrorWarnable => [ArgDERPRegionID; ArgError]
  | mapResponseTimeoutWarnable => [ArgDuration]
  | tlsConnectionFailedWarnable => [ArgServerName; ArgError]
  | magicsockReceiveFuncWarnable => [ArgMagicsockFunctionName]
  | unstableWarnable | NetworkStatusWarnable | IPNStateWarnable
  | notInMapPollWarnable | noDERPHomeWarnable | noUDP4BindWarnable => []
  end.

(** ** The engine

    The functions that store and report active warnings are in files of
    the package outside warnings.go; they are modelled from the spec, over
    any pointer type [ptr] and heap [deref]. *)
Section Engine.
Context {ptr : Type} `{Countable ptr}.
Variable deref : ptr → Warnable ptr.

(** Modelled from the spec: the Active Warning record of the Warning State
    Store, "args + timestamp"; the warnable it belongs to is its key. *)
Record ActiveWarning := {
  activeArgs : Args;
  since : nat
}.

Abbreviation store := (gmap ptr ActiveWarning).

(** Modelled from the spec: [setUnhealthy(handle, args)] "inserts or
    overwrites the active record for this warnable with the given arguments
    and the current time"; the clock is passed as [now]. *)
Definition setUnhealthy (w : ptr) (args : Args) (now : nat) (s : store) : store :=
  <[w := {| activeArgs := args; since := now |}]> s.

(** Modelled from the spec: [setHealthy(handle)] "removes the active record
    if present; no-op otherwise". *)
Definition setHealthy (w : ptr) (s : store) : store := delete w s.

(** Modelled from the spec: [snapshot()], all currently active records.
    A Go map is enumerated in no particular order. *)
Definition snapshot (s : store) : list (ptr * ActiveWarning) := map_to_list s.

(** The states the mutation API can produce from the initial state, in
    which every warnable is healthy. *)
Inductive step : store → store → Prop :=
  | step_unhealthy s w args now : step s (setUnhealthy w args now s)
  | step_healthy s w : step s (setHealthy w s).

Definition reachable (s : store) : Prop := rtc step ∅ s.

Definition isActive (snap : list (ptr * ActiveWarning)) (w : ptr) : bool :=
  bool_decide (w ∈ snap.*1).

(** Modelled from the spec: "a warnable W present in activeSet is
    suppressed if at least one warnable in W.DependsOn is also present in
    activeSet".  [expand] gives the warnables that suppress [w]. *)
Definition suppressedBy (expand : ptr → list ptr)
    (snap : list (ptr * ActiveWarning)) (w : ptr) : bool :=
  existsb (isActive snap) (expand w).

Definition directDeps (w : ptr) : list ptr := DependsOn (deref w).

(** The dependency relation as a graph over warnable identities. *)
Definition dependsOn (w d : ptr) : Prop := d ∈ DependsOn (deref w).

(** The warnables reachable from [w] in at least one and at most [n]
    dependency steps. *)
Fixpoint transDeps (n : nat) (w : ptr) : list ptr :=
  match n with
  | 0 => []
  | S n' => directDeps w ++ (directDeps w ≫= transDeps n')
  end.

(** Modelled from the spec: "sorted by severity descending, then by Code
    ascending"; strings compare bytewise, as Go's [<] does. *)
Definition before (a b : ptr) : bool :=
  Nat.ltb (rank (Severity (deref b))) (rank (Severity (deref a)))
  || (Nat.eqb (rank (Severity (deref a))) (rank (Severity (deref b)))
      && String.leb (Code (deref a)) (Code (deref b))).

Definition entryBefore (a b : ptr * ActiveWarning) : Prop := before a.1 b.1.

(** Modelled from the spec: an element of the visible sequence,
    "(handle, renderedText, severity, impactsConnectivity)". *)
Record VisibleWarning := {
  vHandle : ptr;
  renderedText : string;
  vSeverity : severity;
  impactsConnectivity : bool
}.

(** The order of the visible sequence, read on its elements: a higher
    severity first, and for one severity the smaller [Code] first. *)
Definition ordered (a b : VisibleWarning) : Prop :=
  rank (vSeverity b) < rank (vSeverity a)
  ∨ (vSeverity a = vSeverity b
     ∧ String.leb (Code (deref (vHandle a))) (Code (deref (vHandle b))) = true).

(** Modelled from the spec: [render(handle, args)] invokes the warnable's
    text with the supplied args. *)
Definition render (w : ptr) (args : Args) : option string :=
  callText (deref w) args.

Definition present (e : ptr * ActiveWarning) : option VisibleWarning :=
  text ← render e.1 (activeArgs e.2);
  Some {| vHandle := e.1; renderedText := text;
          vSeverity := Severity (deref e.1);
          impactsConnectivity := ImpactsConnectivity (deref e.1) |}.

Definition survivors (expand : ptr → list ptr)
    (snap : list (ptr * ActiveWarning)) : list (ptr * ActiveWarning) :=
  filter (λ e, suppressedBy expand snap e.1 = false) snap.

(** Modelled from the spec: the Suppression Evaluator, [visible(activeSet)]:
    drop the suppressed warnables, sort the survivors, render each. *)
Definition visibleWith (expand : ptr → list ptr)
    (snap : list (ptr * ActiveWarning)) : option (list VisibleWarning) :=
  mapM present (merge_sort entryBefore (survivors expand snap)).

Definition visible : list (ptr * ActiveWarning) → option (list VisibleWarning) :=
  visibleWith directDeps.

(** Modelled from the spec: the explicit "none/healthy" value and the
    severities above it. *)
Inductive overall := Healthy | Level (s : severity).

Definition maxOverall (s : severity) (o : overall) : overall :=
  match o with
  | Healthy => Level s
  | Level s' => if Nat.ltb (rank s) (rank s') then Level s' else Level s
  end.

(** Modelled from the spec: the Severity Aggregator,
    [aggregate(visibleSet) -> (overallSeverity, connectivityImpacted)]. *)
Definition aggregate (vs : list VisibleWarning) : overall * bool :=
  (foldr (λ v, maxOverall (vSeverity v)) Healthy vs,
   existsb impactsConnectivity vs).

(** Modelled from the spec: the query API. *)
Definition activeWarnings (s : store) : option (list VisibleWarning) :=
  visible (snapshot s).

Definition overallSeverity (s : store) : option overall :=
  vs ← activeWarnings s; Some (aggregate vs).1.

Definition connectivityImpacted (s : store) : option bool :=
  vs ← activeWarnings s; Some (aggregate vs).2.

End Engine.

(** ** Facts about the catalog *)

Lemma catalog_NoDup : NoDup catalog.
Proof. apply (bool_decide_unpack _). by vm_compute. Qed.

Lemma catalog_complete (h : handle) : h ∈ catalog.
Proof. destruct h; apply (bool_decide_unpack _); by vm_compute. Qed.

Global Instance handle_finite : Finite handle :=
  {| enum := catalog; NoDup_enum := catalog_NoDup; elem_of_enum := catalog_complete |}.

Lemma index_insert_absent (args : Args) (k k' : Arg) :
  args !! k = None → (<[k:=""]> args).[k'] = args.[k'].
Proof.
  intros Hk. unfold index.
  destruct (decide (k = k')) as [->|Hne].
  - by rewrite lookup_insert_eq, Hk.
  - by rewrite lookup_insert_ne.
Qed.

Lemma index_lookup_Some (args : Args) (k : Arg) (v : string) :
  args !! k = Some v → args.[k] = v.
Proof. unfold index. by intros ->. Qed.

Lemma index_lookup_None (args : Args) (k : Arg) :
  args !! k = None → args.[k] = "".
Proof. unfold index. by intros ->. Qed.

Section CatalogFacts.
Variable Quote : string → string.

Local Abbreviation heap := (deref Quote).

(** Every edge of the dependency graph ends in [NetworkStatusWarnable]. *)
Lemma dependsOn_target (w d : handle) :
  dependsOn heap w d → d = NetworkStatusWarnable.
Proof.
  unfold dependsOn. destruct w; simpl; intros Hd;
    solve [ by apply elem_of_nil in Hd | by apply list_elem_of_singleton in Hd ].
Qed.

(** No edge leaves [NetworkStatusWarnable]. *)
Lemma dependsOn_source (w d : handle) :
  dependsOn heap w d → w ≠ NetworkStatusWarnable.
Proof.
  intros Hd ->. unfold dependsOn in Hd. simpl in Hd. by apply elem_of_nil in Hd.
Qed.

Lemma tc_dependsOn_target (w d : handle) :
  tc (dependsOn heap) w d → d = NetworkStatusWarnable.
Proof.
  induction 1 as [w d Hd | w m d _ _ IH]; [by eapply dependsOn_target | done].
Qed.

Lemma tc_dependsOn_source (w d : handle) :
  tc (dependsOn heap) w d → w ≠ NetworkStatusWarnable.
Proof. destruct 1; by eapply dependsOn_source. Qed.

(** Paths of the dependency graph have length one. *)
Lemma tc_dependsOn_direct (w d : handle) :
  tc (dependsOn heap) w d ↔ dependsOn heap w d.
Proof.
  split; [|apply tc_once].
  destruct 1 as [w d Hd | w m d Hm Hd]; [done|].
  apply dependsOn_target in Hm as ->.
  by apply tc_dependsOn_source in Hd.
Qed.

(** C1: the text of [LoginStateWarnable] (Code "login-state"), called with
    args that map the error key to "token expired", is the message with
    that error appended, so it contains "token expired"; called with the
    empty args it is exactly "You are logged out.", the variant without
    error text. *)
Theorem LoginState_text (args : Args) :
  args !! ArgError = Some "token expired" →
  Code (heap LoginStateWarnable) = "login-state"
  ∧ callText (heap LoginStateWarnable) args
    = Some "You are logged out. The last login error was: token expired"
  ∧ (∀ s, callText (heap LoginStateWarnable) args = Some s →
          Strings.Contains s "token expired" = true)
  ∧ callText (heap LoginStateWarnable) ∅ = Some "You are logged out.".
Proof.
  intros Herr. apply index_lookup_Some in Herr.
  assert (callText (heap LoginStateWarnable) args
    = Some "You are logged out. The last login error was: token expired") as Htext.
  { unfold callText. simpl. by rewrite Herr. }
  split_and!; [done|done| |done].
  intros s. rewrite Htext. by intros [= <-].
Qed.

(** C9: the text of [testWarnable] (Code "test-warnable") is the value of
    the error key itself, so with args that lack the key the call succeeds
    and returns the empty string. *)
Theorem testWarnable_text_empty (args : Args) :
  args !! ArgError = None →
  Code (heap testWarnable) = "test-warnable"
  ∧ callText (heap testWarnable) args = Some ""
  ∧ ∀ v, callText (heap testWarnable) (<[ArgError := v]> args) = Some v.
Proof.
  intros Herr. apply index_lookup_None in Herr.
  split_and!; [done| |].
  - unfold callText. simpl. by rewrite Herr.
  - intros v. unfold callText. simpl. unfold index. by rewrite lookup_insert_eq.
Qed.

Lemma Code_inj (h1 h2 : handle) :
  Code (heap h1) = Code (heap h2) → h1 = h2.
Proof. by destruct h1, h2. Qed.

Lemma catalog_Text_set (h : handle) : is_Some (Text (heap h)).
Proof. destruct h; by eexists. Qed.

(** C2: two distinct warnables of the catalog have different [Code]s, and
    the [Code]s of the catalog, listed in registration order, have no
    repetition. *)
Theorem Code_unique (h1 h2 : handle) :
  h1 ≠ h2 →
  Code (heap h1) ≠ Code (heap h2) ∧ NoDup ((λ h, Code (heap h)) <$> catalog).
Proof.
  intros Hne. split.
  - intros Heq. by apply Hne, Code_inj.
  - apply NoDup_fmap_2_strong; [|apply catalog_NoDup].
    intros x y _ _. apply Code_inj.
Qed.

(** C3: the dependency graph of the catalog is acyclic: no path of one or
    more [DependsOn] edges leads from a warnable back to itself. *)
Theorem catalog_acyclic (h : handle) : ¬ tc (dependsOn heap) h h.
Proof.
  intros Hcycle.
  pose proof (tc_dependsOn_target _ _ Hcycle) as ->.
  by apply tc_dependsOn_source in Hcycle.
Qed.

(** With both version keys absent, [Sprintf] receives two empty operands
    and prints the format with nothing in their place. *)
Example updateAvailable_text_absent :
  callText (heap updateAvailableWarnable) ∅
  = Some "An update from version  to  is available. Run `tailscale update` or `tailscale set --auto-update` to update.".
Proof. reflexivity. Qed.

Example mapResponseTimeout_text_absent :
  callText (heap mapResponseTimeoutWarnable) ∅
  = Some "Tailscale hasn't received a network map from the coordination server in .".
Proof. reflexivity. Qed.

Example mapResponseTimeout_text (args : Args) :
  callText (heap mapResponseTimeoutWarnable) args
  = Some ("Tailscale hasn't received a network map from the coordination server in "
          +:+ args.[ArgDuration] +:+ ".").
Proof. reflexivity. Qed.

(** C4: calling the text of any warnable of the catalog on any args
    returns a string (no [Text] is nil, nothing panics), and a key that is
    absent from the args reads as the empty string: adding the key with
    the empty string as value does not change the result. *)
Theorem Text_total (h : handle) (args : Args) :
  ∃ s, callText (heap h) args = Some s
     ∧ ∀ k, args !! k = None → callText (heap h) (<[k:=""]> args) = Some s.
Proof.
  destruct h; (eexists; split; [reflexivity|]); intros k Hk;
    unfold callText; simpl; by rewrite ?(index_insert_absent _ _ _ Hk).
Qed.

End CatalogFacts.

(** ** Facts about the engine *)

Lemma String_leb_refl (s : string) : String.leb s s = true.
Proof. destruct (String.leb_total s s); done. Qed.

Lemma String_compare_trans (s1 s2 s3 : string) :
  String.compare s1 s2 ≠ Gt → String.compare s2 s3 ≠ Gt →
  String.compare s1 s3 ≠ Gt.
Proof.
  revert s2 s3. induction s1 as [|a s1 IH]; intros [|b s2] [|c s3]; simpl; try done.
  unfold Ascii.compare.
  destruct (N.compare_spec (N_of_ascii a) (N_of_ascii b)) as [Hab|Hab|Hab];
    destruct (N.compare_spec (N_of_ascii b) (N_of_ascii c)) as [Hbc|Hbc|Hbc];
    destruct (N.compare_spec (N_of_ascii a) (N_of_ascii c)) as [Hac|Hac|Hac];
    try done; try lia.
  apply IH.
Qed.

Lemma String_leb_trans (s1 s2 s3 : string) :
  String.leb s1 s2 = true → String.leb s2 s3 = true → String.leb s1 s3 = true.
Proof.
  unfold String.leb. intros H12 H23.
  pose proof (String_compare_trans s1 s2 s3) as Htrans.
  destruct (String.compare s1 s2), (String.compare s2 s3), (String.compare s1 s3);
    try done; exfalso; by apply Htrans.
Qed.

Section EngineFacts.
Context {ptr : Type} `{Countable ptr}.
Variable deref : ptr → Warnable ptr.

Local Abbreviation entry := (ptr * ActiveWarning)%type.
Local Abbreviation store := (gmap ptr ActiveWarning).
Local Abbreviation visibleWarning := (@VisibleWarning ptr).

Lemma before_spec (a b : ptr) :
  before deref a b ↔
    rank (Severity (deref b)) < rank (Severity (deref a))
    ∨ (rank (Severity (deref a)) = rank (Severity (deref b))
       ∧ String.leb (Code (deref a)) (Code (deref b)) = true).
Proof.
  unfold before.
  rewrite orb_True, andb_True, !Is_true_true, Nat.ltb_lt, Nat.eqb_eq. done.
Qed.

Global Instance entryBefore_total : Total (entryBefore deref).
Proof.
  intros a b. unfold entryBefore. rewrite !before_spec.
  destruct (String.leb_total (Code (deref a.1)) (Code (deref b.1)));
    destruct (Nat.lt_trichotomy (rank (Severity (deref a.1))) (rank (Severity (deref b.1))))
      as [?|[?|?]]; auto.
Qed.

Global Instance entryBefore_trans : Transitive (entryBefore deref).
Proof.
  intros a b c. unfold entryBefore. rewrite !before_spec.
  intros [?|[? Hab]] [?|[? Hbc]]; [left; lia..|].
  right. split; [lia|]. by eapply String_leb_trans.
Qed.

(** With distinct [Code]s, two warnables that may each come before the
    other are the same warnable. *)
Lemma before_antisym (a b : ptr) :
  (∀ x y, Code (deref x) = Code (deref y) → x = y) →
  before deref a b → before deref b a → a = b.
Proof.
  intros Hinj. rewrite !before_spec.
  intros [?|[? Hab]] [?|[? Hba]]; try lia.
  apply Hinj. by apply String.leb_antisym.
Qed.

Lemma rank_inj (s1 s2 : severity) : rank s1 = rank s2 → s1 = s2.
Proof. by destruct s1, s2. Qed.

Lemma isActive_Permutation (snap1 snap2 : list entry) (w : ptr) :
  snap1 ≡ₚ snap2 → isActive snap1 w = isActive snap2 w.
Proof.
  intros Hp. unfold isActive. apply bool_decide_ext. by rewrite Hp.
Qed.

Lemma suppressedBy_Permutation expand (snap1 snap2 : list entry) (w : ptr) :
  snap1 ≡ₚ snap2 → suppressedBy expand snap1 w = suppressedBy expand snap2 w.
Proof.
  intros Hp. unfold suppressedBy.
  induction (expand w) as [|d ds IH]; simpl; [done|].
  by rewrite IH, (isActive_Permutation _ _ _ Hp).
Qed.

Lemma survivors_Permutation expand (snap1 snap2 : list entry) :
  snap1 ≡ₚ snap2 → survivors expand snap1 ≡ₚ survivors expand snap2.
Proof.
  intros Hp. unfold survivors.
  rewrite (list_filter_iff _ (λ e, suppressedBy expand snap2 e.1 = false)).
  - by rewrite Hp.
  - intros e. by rewrite (suppressedBy_Permutation _ _ _ _ Hp).
Qed.

Lemma survivors_subseteq expand (snap : list entry) :
  survivors expand snap ⊆ snap.
Proof. intros e. unfold survivors. rewrite list_elem_of_filter. tauto. Qed.

(** Two entries of a snapshot with the same key are the same entry. *)
Lemma snapshot_key_inj (snap : list entry) (e1 e2 : entry) :
  NoDup snap.*1 → e1 ∈ snap → e2 ∈ snap → e1.1 = e2.1 → e1 = e2.
Proof.
  intros Hnd H1 H2 Hk.
  induction snap as [|e snap IH]; [by apply elem_of_nil in H1|].
  rewrite fmap_cons in Hnd. apply NoDup_cons in Hnd as [Hfresh Hnd].
  apply elem_of_cons in H1 as [->|H1], H2 as [->|H2]; [done| | |by apply IH].
  - destruct Hfresh. rewrite Hk. by apply list_elem_of_fmap_2.
  - destruct Hfresh. rewrite <-Hk. by apply list_elem_of_fmap_2.
Qed.

(** The sorted survivors do not depend on the order in which the store is
    enumerated. *)
Lemma sorted_survivors_Permutation expand (snap1 snap2 : list entry) :
  (∀ x y, Code (deref x) = Code (deref y) → x = y) →
  NoDup snap1.*1 → snap1 ≡ₚ snap2 →
  merge_sort (entryBefore deref) (survivors expand snap1)
  = merge_sort (entryBefore deref) (survivors expand snap2).
Proof.
  intros Hinj Hnd Hp.
  apply (StronglySorted_unique_strong (entryBefore deref)).
  - intros e1 e2. rewrite !merge_sort_Permutation. intros H1 H2 H12 H21.
    apply survivors_subseteq in H1, H2. rewrite <-Hp in H2.
    apply (snapshot_key_inj snap1); [done..|].
    by apply before_antisym.
  - apply (StronglySorted_merge_sort _).
  - apply (StronglySorted_merge_sort _).
  - rewrite !merge_sort_Permutation. by apply survivors_Permutation.
Qed.

Lemma visibleWith_Permutation expand (snap1 snap2 : list entry) :
  (∀ x y, Code (deref x) = Code (deref y) → x = y) →
  NoDup snap1.*1 → snap1 ≡ₚ snap2 →
  visibleWith deref expand snap1 = visibleWith deref expand snap2.
Proof.
  intros Hinj Hnd Hp. unfold visibleWith.
  by rewrite (sorted_survivors_Permutation expand snap1 snap2).
Qed.

Lemma present_Some (e : entry) (v : visibleWarning) :
  present deref e = Some v →
  vHandle v = e.1 ∧ vSeverity v = Severity (deref e.1)
  ∧ impactsConnectivity v = ImpactsConnectivity (deref e.1)
  ∧ callText (deref e.1) (activeArgs e.2) = Some (renderedText v).
Proof.
  unfold present, render. destruct (callText _ _) as [text|]; simpl; [|done].
  by intros [= <-].
Qed.

Lemma present_is_Some (e : entry) :
  is_Some (Text (deref e.1)) → is_Some (present deref e).
Proof.
  intros [f Hf]. unfold present, render, callText. rewrite Hf. simpl. by eexists.
Qed.

(** When no [Text] is nil, the evaluator returns a sequence. *)
Lemma visibleWith_is_Some expand (snap : list entry) :
  (∀ w, is_Some (Text (deref w))) → is_Some (visibleWith deref expand snap).
Proof.
  intros Htext. apply mapM_is_Some, Forall_forall. intros e _.
  by apply present_is_Some.
Qed.

Lemma entryBefore_ordered (e1 e2 : entry) (v1 v2 : visibleWarning) :
  present deref e1 = Some v1 → present deref e2 = Some v2 →
  entryBefore deref e1 e2 → ordered deref v1 v2.
Proof.
  intros (Hh1 & Hs1 & _)%present_Some (Hh2 & Hs2 & _)%present_Some.
  unfold entryBefore, ordered. rewrite before_spec, Hh1, Hh2, Hs1, Hs2.
  intros [?|[?%rank_inj ?]]; auto.
Qed.

Lemma presented_sorted (l : list entry) (vs : list visibleWarning) :
  StronglySorted (entryBefore deref) l →
  Forall2 (λ e v, present deref e = Some v) l vs →
  StronglySorted (ordered deref) vs.
Proof.
  intros Hsorted Hall. revert Hsorted.
  induction Hall as [|e v l vs Hev Hall IH]; intros Hsorted; [constructor|].
  apply StronglySorted_inv in Hsorted as [Hl Hhd].
  constructor; [by apply IH|].
  clear IH Hl. induction Hall as [|e' v' l vs Hev' _ IH]; [constructor|].
  apply Forall_cons in Hhd as [He Hhd].
  constructor; [by eapply entryBefore_ordered | by apply IH].
Qed.

Lemma visibleWith_sorted expand (snap : list entry) (vs : list visibleWarning) :
  visibleWith deref expand snap = Some vs → StronglySorted (ordered deref) vs.
Proof.
  intros Hvs%mapM_Some_1.
  eapply presented_sorted; [|done]. apply (StronglySorted_merge_sort _).
Qed.

(** The first component of [aggregate] is the maximum severity. *)
Lemma aggregate_nil : aggregate (@nil (visibleWarning)) = (Healthy, false).
Proof. done. Qed.

Lemma aggregate_max (vs : list visibleWarning) :
  vs ≠ [] →
  ∃ v, v ∈ vs ∧ (aggregate vs).1 = Level (vSeverity v)
     ∧ ∀ v', v' ∈ vs → (rank (vSeverity v') ≤ rank (vSeverity v))%nat.
Proof.
  unfold aggregate. cbn [fst].
  induction vs as [|v vs IH]; [done|]. intros _. cbn [foldr].
  destruct (decide (vs = [])) as [->|Hne].
  { exists v. split_and!; [by left|done|]. by intros v' ->%list_elem_of_singleton. }
  destruct (IH Hne) as (m & Hm & -> & Hmax). cbn [maxOverall].
  destruct (Nat.ltb_spec (rank (vSeverity v)) (rank (vSeverity m))) as [Hlt|Hge].
  - exists m. split_and!; [by right|done|].
    intros v' [->|Hv']%elem_of_cons; [lia|by apply Hmax].
  - exists v. split_and!; [by left|done|].
    intros v' [->|Hv']%elem_of_cons; [done|]. specialize (Hmax v' Hv'). lia.
Qed.

Lemma aggregate_connectivity (vs : list visibleWarning) :
  (aggregate vs).2 = true ↔ ∃ v, v ∈ vs ∧ impactsConnectivity v = true.
Proof.
  simpl. rewrite existsb_exists. by setoid_rewrite list_elem_of_In.
Qed.

(** Every store is reachable: the mutation API can insert its records one
    by one. *)
Lemma reachable_all (s : store) : reachable s.
Proof.
  unfold reachable. induction s as [|w a s Hw IH] using map_ind; [done|].
  eapply rtc_r; [exact IH|]. destruct a as [args now].
  apply (step_unhealthy s w args now).
Qed.

(** C6: in every reachable state, [overallSeverity] is the healthy value
    when [activeWarnings] is empty and otherwise the severity of one of its
    entries that no entry exceeds, and [connectivityImpacted] is true
    exactly when some entry of [activeWarnings] has its connectivity flag
    set.  The queries return whenever no registered [Text] is nil. *)
Theorem aggregate_of_activeWarnings (s : store) :
  (∀ w, is_Some (Text (deref w))) →
  reachable s →
  ∃ vs : list visibleWarning,
    activeWarnings deref s = Some vs
    ∧ (vs = [] → overallSeverity deref s = Some Healthy)
    ∧ (vs ≠ [] →
       ∃ v, v ∈ vs ∧ overallSeverity deref s = Some (Level (vSeverity v))
          ∧ ∀ v', v' ∈ vs → (rank (vSeverity v') ≤ rank (vSeverity v))%nat)
    ∧ ∃ b, connectivityImpacted deref s = Some b
         ∧ (b = true ↔ ∃ v, v ∈ vs ∧ impactsConnectivity v = true).
Proof.
  intros Htext _.
  destruct (visibleWith_is_Some (directDeps deref) (snapshot s) Htext) as [vs Hvs].
  exists vs. unfold overallSeverity, connectivityImpacted, activeWarnings, visible.
  rewrite Hvs. simpl. split_and!; [done| | |].
  - by intros ->.
  - intros Hne. destruct (aggregate_max vs Hne) as (v & Hv & Hagg & Hmax).
    exists v. split_and!; [done| |done]. f_equal. exact Hagg.
  - eexists. split; [done|]. apply (aggregate_connectivity vs).
Qed.

(** C7: the sequence [activeWarnings] returns is sorted by severity
    descending and, for one severity, by [Code] ascending; and it is the
    same sequence in whatever order the store is enumerated, so repeated
    queries of an unchanged store agree.  ([Code]s are distinct and no
    [Text] is nil, as [Register] and the catalog ensure.) *)
Theorem activeWarnings_sorted_deterministic (s : store) :
  (∀ w, is_Some (Text (deref w))) →
  (∀ x y, Code (deref x) = Code (deref y) → x = y) →
  ∃ vs : list visibleWarning,
    activeWarnings deref s = Some vs
    ∧ StronglySorted (ordered deref) vs
    ∧ ∀ snap, snap ≡ₚ snapshot s → visible deref snap = Some vs.
Proof.
  intros Htext Hinj.
  destruct (visibleWith_is_Some (directDeps deref) (snapshot s) Htext) as [vs Hvs].
  exists vs. split_and!; [done|by eapply visibleWith_sorted|].
  intros snap Hp. rewrite <-Hvs. unfold visible. symmetry.
  apply visibleWith_Permutation; [done| |done].
  apply NoDup_fst_map_to_list.
Qed.

(** C8: a second [setUnhealthy] of the same warnable leaves the number of
    active records as it is after the first, keeps one record per
    warnable, and changes only the record of that warnable, which holds
    the args and the time of the second call. *)
Theorem setUnhealthy_idempotent (w : ptr) (a : Args) (t1 t2 : nat) (s : store) :
  size (setUnhealthy w a t2 (setUnhealthy w a t1 s)) = size (setUnhealthy w a t1 s)
  ∧ NoDup (snapshot (setUnhealthy w a t2 (setUnhealthy w a t1 s))).*1
  ∧ setUnhealthy w a t2 (setUnhealthy w a t1 s) !! w
    = Some {| activeArgs := a; since := t2 |}
  ∧ dom (setUnhealthy w a t2 (setUnhealthy w a t1 s)) = dom (setUnhealthy w a t1 s)
  ∧ ∀ w', w' ≠ w →
      setUnhealthy w a t2 (setUnhealthy w a t1 s) !! w' = setUnhealthy w a t1 s !! w'.
Proof.
  unfold setUnhealthy. split_and!.
  - rewrite map_size_insert_Some; [done|]. rewrite lookup_insert_eq. by eexists.
  - apply NoDup_fst_map_to_list.
  - apply lookup_insert_eq.
  - by rewrite insert_insert_eq, !dom_insert_L.
  - intros w' Hne. by rewrite lookup_insert_ne.
Qed.

End EngineFacts.

(** ** The engine on the catalog *)

Section CatalogEngine.
Variable Quote : string → string.

Local Abbreviation heap := (deref Quote).

Lemma directDeps_shape (h : handle) :
  DependsOn (heap h) = [] ∨ DependsOn (heap h) = [NetworkStatusWarnable].
Proof. destruct h; simpl; auto. Qed.

(** On the catalog, following dependencies further than one step adds
    nothing. *)
Lemma transDeps_direct (n : nat) (w : handle) :
  transDeps heap (S n) w = directDeps heap w.
Proof.
  assert (transDeps heap n NetworkStatusWarnable = []) as Hroot by (by destruct n).
  cbn [transDeps]. unfold directDeps.
  destruct (directDeps_shape w) as [->| ->]; [done|].
  simpl. by rewrite Hroot.
Qed.

Lemma transDeps_tc (n : nat) (w d : handle) :
  d ∈ transDeps heap (S n) w ↔ tc (dependsOn heap) w d.
Proof. by rewrite transDeps_direct, tc_dependsOn_direct. Qed.

Lemma visibleWith_ext (expand1 expand2 : handle → list handle)
    (snap : list (handle * ActiveWarning)) :
  (∀ w, expand1 w = expand2 w) →
  visibleWith heap expand1 snap = visibleWith heap expand2 snap.
Proof.
  intros Hext. unfold visibleWith, survivors. f_equal. f_equal.
  apply list_filter_iff. intros e. unfold suppressedBy. by rewrite Hext.
Qed.

(** C5: with [NetworkStatusWarnable] (Code "network-status", no
    dependencies) and [noDERPHomeWarnable] (Code "no-derp-home", depending
    on it) both active, [activeWarnings] returns [NetworkStatusWarnable]
    alone; once [NetworkStatusWarnable] is set healthy it returns
    [noDERPHomeWarnable] alone. *)
Theorem scenario_network_down (a0 a1 : Args) (t0 t1 : nat) :
  Code (heap NetworkStatusWarnable) = "network-status"
  ∧ DependsOn (heap NetworkStatusWarnable) = []
  ∧ Code (heap noDERPHomeWarnable) = "no-derp-home"
  ∧ NetworkStatusWarnable ∈ DependsOn (heap noDERPHomeWarnable)
  ∧ activeWarnings heap
      (setUnhealthy noDERPHomeWarnable a1 t1
        (setUnhealthy NetworkStatusWarnable a0 t0 ∅))
    = Some [ {| vHandle := NetworkStatusWarnable;
                renderedText := "Tailscale cannot connect because the network is down. (No network interface is up.)";
                vSeverity := SeverityHigh;
                impactsConnectivity := true |} ]
  ∧ activeWarnings heap
      (setHealthy NetworkStatusWarnable
        (setUnhealthy noDERPHomeWarnable a1 t1
          (setUnhealthy NetworkStatusWarnable a0 t0 ∅)))
    = Some [ {| vHandle := noDERPHomeWarnable;
                renderedText := "Tailscale could not connect to any relay server. Check your Internet connection.";
                vSeverity := SeverityHigh;
                impactsConnectivity := false |} ].
Proof.
  split_and!; [done|done|done|by left| |].
  - unfold activeWarnings, visible, setUnhealthy.
    rewrite (visibleWith_Permutation heap _ _
      [ (noDERPHomeWarnable, {| activeArgs := a1; since := t1 |});
        (NetworkStatusWarnable, {| activeArgs := a0; since := t0 |}) ]).
    + by vm_compute.
    + apply Code_inj.
    + apply NoDup_fst_map_to_list.
    + unfold snapshot. rewrite map_to_list_insert by done.
      by rewrite insert_empty, map_to_list_singleton.
  - unfold activeWarnings, visible, setUnhealthy, setHealthy, snapshot.
    rewrite delete_insert_ne by done.
    rewrite delete_insert_eq, delete_empty, insert_empty, map_to_list_singleton.
    by vm_compute.
Qed.

(** C10: every warnable of the catalog depends on nothing or on
    [NetworkStatusWarnable] alone, which depends on nothing; so the
    warnables reached by following dependencies are the direct ones, and
    suppression by the transitive closure gives the same visible sequence
    as suppression by direct dependencies, for every active set. *)
Theorem catalog_depth_one :
  (∀ h, DependsOn (heap h) = [] ∨ DependsOn (heap h) = [NetworkStatusWarnable])
  ∧ DependsOn (heap NetworkStatusWarnable) = []
  ∧ (∀ w d, tc (dependsOn heap) w d ↔ d ∈ transDeps heap (length catalog) w)
  ∧ ∀ snap, visibleWith heap (transDeps heap (length catalog)) snap
            = visible heap snap.
Proof.
  split_and!; [apply directDeps_shape|done| |].
  - intros w d. symmetry. apply transDeps_tc.
  - intros snap. apply visibleWith_ext. intros w. apply transDeps_direct.
Qed.

End CatalogEngine.

(** ** Instances

    The theorems above at concrete inputs, with [fmt.QuoteASCII] for
    [strconv.Quote]. *)

Lemma LoginState_text_witness :
  ({[ArgError := "token expired"]} : gmap string string) !! ArgError
    = Some "token expired"
  ∧ (Code (deref fmt.QuoteASCII LoginStateWarnable) = "login-state"
     ∧ callText (deref fmt.QuoteASCII LoginStateWarnable) {[ArgError := "token expired"]}
       = Some "You are logged out. The last login error was: token expired"
     ∧ (∀ s, callText (deref fmt.QuoteASCII LoginStateWarnable)
               {[ArgError := "token expired"]} = Some s →
             Strings.Contains s "token expired" = true)
     ∧ callText (deref fmt.QuoteASCII LoginStateWarnable) ∅
       = Some "You are logged out.").
Proof.
  split; [by vm_compute|].
  apply (LoginState_text fmt.QuoteASCII {[ArgError := "token expired"]}).
  by vm_compute.
Defined.

Lemma testWarnable_text_empty_witness :
  (∅ : gmap string string) !! ArgError = None
  ∧ (Code (deref fmt.QuoteASCII testWarnable) = "test-warnable"
     ∧ callText (deref fmt.QuoteASCII testWarnable) ∅ = Some ""
     ∧ ∀ v, callText (deref fmt.QuoteASCII testWarnable) (<[ArgError := v]> ∅) = Some v).
Proof.
  split; [by vm_compute|].
  apply (testWarnable_text_empty fmt.QuoteASCII ∅). by vm_compute.
Defined.

Lemma Code_unique_witness :
  NetworkStatusWarnable ≠ noDERPHomeWarnable
  ∧ (Code (deref fmt.QuoteASCII NetworkStatusWarnable)
       ≠ Code (deref fmt.QuoteASCII noDERPHomeWarnable)
     ∧ NoDup ((λ h, Code (deref fmt.QuoteASCII h)) <$> catalog)).
Proof.
  split; [discriminate|].
  apply (Code_unique fmt.QuoteASCII NetworkStatusWarnable noDERPHomeWarnable).
  discriminate.
Defined.

Lemma aggregate_of_activeWarnings_witness :
  (∀ w, is_Some (Text (deref fmt.QuoteASCII w)))
  ∧ reachable (setUnhealthy noUDP4BindWarnable ∅ 0 ∅)
  ∧ ∃ vs : list (@VisibleWarning handle),
      activeWarnings (deref fmt.QuoteASCII) (setUnhealthy noUDP4BindWarnable ∅ 0 ∅) = Some vs
      ∧ (vs = [] →
         overallSeverity (deref fmt.QuoteASCII) (setUnhealthy noUDP4BindWarnable ∅ 0 ∅)
         = Some Healthy)
      ∧ (vs ≠ [] →
         ∃ v, v ∈ vs
            ∧ overallSeverity (deref fmt.QuoteASCII) (setUnhealthy noUDP4BindWarnable ∅ 0 ∅)
              = Some (Level (vSeverity v))
            ∧ ∀ v', v' ∈ vs → (rank (vSeverity v') ≤ rank (vSeverity v))%nat)
      ∧ ∃ b, connectivityImpacted (deref fmt.QuoteASCII)
               (setUnhealthy noUDP4BindWarnable ∅ 0 ∅) = Some b
           ∧ (b = true ↔ ∃ v, v ∈ vs ∧ impactsConnectivity v = true).
Proof.
  assert (∀ w, is_Some (Text (deref fmt.QuoteASCII w))) as Htext
    by (intros []; eexists; reflexivity).
  assert (reachable (setUnhealthy noUDP4BindWarnable ∅ 0 ∅)) as Hreach
    by (apply rtc_once, step_unhealthy).
  split_and!; [exact Htext|exact Hreach|].
  exact (aggregate_of_activeWarnings (deref fmt.QuoteASCII) _ Htext Hreach).
Defined.

Lemma activeWarnings_sorted_deterministic_witness :
  (∀ w, is_Some (Text (deref fmt.QuoteASCII w)))
  ∧ (∀ x y, Code (deref fmt.QuoteASCII x) = Code (deref fmt.QuoteASCII y) → x = y)
  ∧ ∃ vs : list (@VisibleWarning handle),
      activeWarnings (deref fmt.QuoteASCII)
        (setUnhealthy noUDP4BindWarnable ∅ 1 (setUnhealthy noDERPHomeWarnable ∅ 0 ∅))
      = Some vs
      ∧ StronglySorted (ordered (deref fmt.QuoteASCII)) vs
      ∧ ∀ snap,
          snap ≡ₚ snapshot
            (setUnhealthy noUDP4BindWarnable ∅ 1 (setUnhealthy noDERPHomeWarnable ∅ 0 ∅)) →
          visible (deref fmt.QuoteASCII) snap = Some vs.
Proof.
  assert (∀ w, is_Some (Text (deref fmt.QuoteASCII w))) as Htext
    by (intros []; eexists; reflexivity).
  assert (∀ x y, Code (deref fmt.QuoteASCII x) = Code (deref fmt.QuoteASCII y) → x = y)
    as Hinj by (intros [] []; simpl; intros Heq; (reflexivity || discriminate Heq)).
  split_and!; [exact Htext|exact Hinj|].
  exact (activeWarnings_sorted_deterministic (deref fmt.QuoteASCII) _ Htext Hinj).
Defined.

(** ** More about strings and [fmt.Sprintf] *)

Lemma Contains_unfold (s x : string) :
  Strings.Contains s x
  = String.prefix x s
    || match s with EmptyString => false | String _ s' => Strings.Contains s' x end.
Proof. by destruct s. Qed.

Lemma prefix_append (x r : string) : String.prefix x (x +:+ r) = true.
Proof.
  induction x as [|c x IH]; simpl; [by destruct r|].
  by destruct (ascii_dec c c).
Qed.

Lemma Contains_prefix (x r : string) : Strings.Contains (x +:+ r) x = true.
Proof. by rewrite Contains_unfold, prefix_append. Qed.

Lemma Contains_cons (c : ascii) (s x : string) :
  Strings.Contains s x = true → Strings.Contains (String c s) x = true.
Proof. intros Hs. simpl. rewrite Hs. apply orb_true_r. Qed.

Lemma Contains_append_r (a b x : string) :
  Strings.Contains b x = true → Strings.Contains (a +:+ b) x = true.
Proof. intros Hb. induction a as [|c a IH]; [done|]. by apply Contains_cons. Qed.

Lemma noPercent_append (a b : string) :
  Strings.noPercent (a +:+ b) = Strings.noPercent a && Strings.noPercent b.
Proof. induction a as [|c a IH]; simpl; [done|]. by rewrite IH, andb_assoc. Qed.

(** A string without percent sign holds none of the [%!] markers by which
    [fmt] reports a bad format. *)
Lemma noPercent_no_marker (s : string) :
  Strings.noPercent s = true → Strings.Contains s "%!" = false.
Proof.
  induction s as [|c s IH]; [done|].
  rewrite Contains_unfold. cbn [Strings.noPercent String.prefix].
  intros [Hc Hs]%andb_true_iff. rewrite (IH Hs), orb_false_r.
  destruct (ascii_dec "%" c) as [<-|_]; [by vm_compute in Hc|done].
Qed.

Lemma append_inj_r (a b c : string) : a +:+ b = a +:+ c → b = c.
Proof. induction a as [|x a IH]; simpl; [done|]. intros [= Heq]. by apply IH. Qed.

Lemma append_empty_r (s : string) : s +:+ "" = s.
Proof.
  induction s as [|c s IH]; [done|].
  change (String c (s +:+ "") = String c s). by f_equal.
Qed.

Lemma prefix_refl (s : string) : String.prefix s s = true.
Proof. induction s as [|c s IH]; simpl; [done|]. by destruct (ascii_dec c c). Qed.

Lemma Contains_refl (s : string) : Strings.Contains s s = true.
Proof. by rewrite Contains_unfold, prefix_refl. Qed.

Lemma Contains_empty (s : string) : Strings.Contains s "" = true.
Proof. by destruct s. Qed.

Section SprintfFacts.
Variable Quote : string → string.

Local Abbreviation Sprintf := (fmt.Sprintf Quote).

Lemma Sprintf_lit (c : ascii) (rest : string) (a : list string) :
  c ≠ "%"%char → Sprintf (String c rest) a = String c (Sprintf rest a).
Proof. intros Hc. cbn [fmt.Sprintf]. by rewrite decide_False. Qed.

Lemma Sprintf_verb (v : ascii) (rest x : string) (a : list string) :
  v ≠ "%"%char →
  Sprintf (String "%" (String v rest)) (x :: a)
  = fmt.verb Quote v x +:+ Sprintf rest a.
Proof.
  intros Hv. cbn [fmt.Sprintf]. rewrite decide_True by done. by rewrite decide_False.
Qed.

Lemma verbs_lit (c : ascii) (rest : string) :
  c ≠ "%"%char → fmt.verbs (String c rest) = fmt.verbs rest.
Proof. intros Hc. cbn [fmt.verbs]. by rewrite decide_False. Qed.

Lemma verbs_verb (v : ascii) (rest : string) :
  fmt.verbs (String "%" (String v rest)) = v :: fmt.verbs rest.
Proof. cbn [fmt.verbs]. by rewrite decide_True. Qed.

Lemma stringVerb_not_percent (v : ascii) : fmt.stringVerb v = true → v ≠ "%"%char.
Proof. by intros Hv ->. Qed.

Lemma verb_plain (v : ascii) (x : string) :
  fmt.plainVerb v = true → fmt.verb Quote v x = x.
Proof. by intros [-> | ->]%bool_decide_eq_true. Qed.

Lemma verb_string (v : ascii) (x : string) :
  fmt.stringVerb v = true → fmt.verb Quote v x = x ∨ fmt.verb Quote v x = Quote x.
Proof.
  intros [Hv | ->%bool_decide_eq_true]%orb_true_iff; [|by right].
  left. by apply verb_plain.
Qed.

(** A format whose verbs are [%s], [%v] or [%q], one per operand, prints
    no percent sign when its literal text and its operands have none and
    [Quote] adds none. *)
Lemma Sprintf_noPercent (format : string) (a : list string) :
  (∀ s, Strings.noPercent s = true → Strings.noPercent (Quote s) = true) →
  forallb fmt.stringVerb (fmt.verbs format) = true →
  length (fmt.verbs format) = length a →
  Forall (λ x, Strings.noPercent x = true) a →
  Strings.noPercent (Sprintf format a) = true.
Proof.
  intros HQ.
  remember (String.length format) as n eqn:Hn.
  revert format a Hn. induction (lt_wf n) as [n _ IH].
  intros [|c rest] a Hn Hok Hcount Ha.
  { destruct a; [done|]. by simpl in Hcount. }
  simpl in Hn. destruct (decide (c = "%"%char)) as [->|Hc].
  - destruct rest as [|v rest]; [by vm_compute in Hok|].
    rewrite verbs_verb in Hok, Hcount. simpl in Hok, Hcount, Hn.
    apply andb_true_iff in Hok as [Hv Hok].
    destruct a as [|x a]; [done|]. apply Forall_cons in Ha as [Hx Ha].
    rewrite Sprintf_verb by by apply stringVerb_not_percent.
    rewrite noPercent_append. apply andb_true_iff. split.
    + destruct (verb_string v x Hv) as [-> | ->]; [done|by apply HQ].
    + eapply (IH (String.length rest)); [lia|done|done|simpl in Hcount; lia|done].
  - rewrite verbs_lit in Hok, Hcount by done. rewrite Sprintf_lit by done.
    cbn [Strings.noPercent]. apply andb_true_iff. split.
    + apply negb_true_iff, Ascii.eqb_neq. done.
    + eapply (IH (String.length rest)); [lia|done..].
Qed.

(** The operand of a [%s] or [%v] verb is part of the output. *)
Lemma Sprintf_Contains (format : string) (a : list string) (i : nat)
    (x : string) (c : ascii) :
  forallb fmt.stringVerb (fmt.verbs format) = true →
  a !! i = Some x → fmt.verbs format !! i = Some c → fmt.plainVerb c = true →
  Strings.Contains (Sprintf format a) x = true.
Proof.
  remember (String.length format) as n eqn:Hn.
  revert format a i Hn. induction (lt_wf n) as [n _ IH].
  intros [|c0 rest] a i Hn Hok Hx Hc Hplain; [done|].
  simpl in Hn. destruct (decide (c0 = "%"%char)) as [->|Hc0].
  - destruct rest as [|v rest]; [by vm_compute in Hok|].
    rewrite verbs_verb in Hok, Hc. simpl in Hok, Hn.
    apply andb_true_iff in Hok as [Hv Hok].
    destruct a as [|x0 a]; [done|].
    rewrite Sprintf_verb by by apply stringVerb_not_percent.
    destruct i as [|i]; simpl in Hx, Hc.
    + injection Hx as ->. injection Hc as ->.
      rewrite verb_plain by done. apply Contains_prefix.
    + apply Contains_append_r.
      eapply (IH (String.length rest)); [lia|done..].
  - rewrite verbs_lit in Hok, Hc by done. rewrite Sprintf_lit by done.
    apply Contains_cons. eapply (IH (String.length rest)); [lia|done..].
Qed.

End SprintfFacts.

(** ** More about the texts of the catalog *)

Lemma index_empty (k : Arg) : (∅ : gmap string string).[k] = "".
Proof. unfold index. by rewrite lookup_empty. Qed.

Lemma index_insert_eq (args : Args) (k : Arg) (v : string) :
  (<[k:=v]> args).[k] = v.
Proof. unfold index. by rewrite lookup_insert_eq. Qed.

Lemma index_insert_ne (args : Args) (k k' : Arg) (v : string) :
  k ≠ k' → (<[k:=v]> args).[k'] = args.[k'].
Proof. intros Hne. unfold index. by rewrite lookup_insert_ne. Qed.

Lemma noPercent_index (args : Args) (k : Arg) :
  (∀ k v, args !! k = Some v → Strings.noPercent v = true) →
  Strings.noPercent args.[k] = true.
Proof.
  intros Hargs. unfold index. destruct (args !! k) as [v|] eqn:Hk; [|done].
  by eapply Hargs.
Qed.

Lemma QuoteASCII_noPercent (s : string) :
  Strings.noPercent s = true → Strings.noPercent (fmt.QuoteASCII s) = true.
Proof.
  intros Hs. unfold fmt.QuoteASCII. cbn [Strings.noPercent].
  rewrite noPercent_append. apply andb_true_iff. split; [done|].
  apply andb_true_iff. split; [|done].
  induction s as [|c s IH]; [done|]. cbn [Strings.noPercent] in Hs.
  apply andb_true_iff in Hs as [Hc Hs]. cbn [fmt.escape].
  repeat case_decide; cbn [Strings.noPercent]; rewrite ?Hc, (IH Hs); by subst.
Qed.

(** Unfold the call of a warnable's text down to its [Sprintf]. *)
Ltac expose_text :=
  unfold callText; cbn [deref Text mbind option_bind StaticMessage]; cbv zeta.

Section TextFacts.
Variable Quote : string → string.

Local Abbreviation heap := (deref Quote).

(** X1: [LoginStateWarnable] appends the error to its message exactly when
    the error is not the empty string; an error key that is present with
    the empty string as value gives the same text as an absent one. *)
Theorem LoginState_text_cases (args : Args) :
  callText (heap LoginStateWarnable) args
  = Some (if decide (args.[ArgError] = "") then "You are logged out."
          else "You are logged out. The last login error was: " +:+ args.[ArgError])
  ∧ callText (heap LoginStateWarnable) (<[ArgError := ""]> args)
    = callText (heap LoginStateWarnable) (delete ArgError args).
Proof.
  split.
  - expose_text. destruct (String.eqb_spec args.[ArgError] "") as [He|He].
    + rewrite decide_True by done. done.
    + rewrite decide_False by done. cbn [negb].
      change (fmt.Sprintf Quote _ _)
        with ("You are logged out. The last login error was: "
              +:+ (args.[ArgError] +:+ "")).
      by rewrite append_empty_r.
  - expose_text. rewrite index_insert_eq. unfold index at 1 2.
    by rewrite lookup_delete_eq.
Qed.

(** X2: [noDERPConnectionWarnable] names the relay by its region name when
    the name is not empty, and then the region ID plays no part; with the
    name empty or absent it names the relay by its region ID. *)
Theorem noDERPConnection_text_cases (args : Args) :
  callText (heap noDERPConnectionWarnable) args
  = Some (if decide (args.[ArgDERPRegionName] = "") then
            "Tailscale could not connect to the relay server with ID '"
            +:+ args.[ArgDERPRegionID]
            +:+ "'. Your Internet connection might be down, or the server might be temporarily unavailable."
          else
            "Tailscale could not connect to the '"
            +:+ args.[ArgDERPRegionName]
            +:+ "' relay server. Your Internet connection might be down, or the server might be temporarily unavailable.").
Proof.
  expose_text. destruct (String.eqb_spec args.[ArgDERPRegionName] "") as [He|He].
  - rewrite decide_True by done. by rewrite He.
  - rewrite decide_False by done. done.
Qed.

(** X3: [derpTimeoutWarnable] has the same two variants, by region name or
    by region ID, each followed by the duration. *)
Theorem derpTimeout_text_cases (args : Args) :
  callText (heap derpTimeoutWarnable) args
  = Some (if decide (args.[ArgDERPRegionName] = "") then
            "Tailscale hasn't heard from the home relay server (region ID '"
            +:+ args.[ArgDERPRegionID] +:+ "') in " +:+ args.[ArgDuration]
            +:+ ". The server might be temporarily unavailable, or your Internet connection might be down."
          else
            "Tailscale hasn't heard from the '"
            +:+ args.[ArgDERPRegionName] +:+ "' relay server in " +:+ args.[ArgDuration]
            +:+ ". The server might be temporarily unavailable, or your Internet connection might be down.").
Proof.
  expose_text. destruct (String.eqb_spec args.[ArgDERPRegionName] "") as [He|He].
  - rewrite decide_True by done. by rewrite He.
  - rewrite decide_False by done. done.
Qed.

Lemma callText_frame (h : handle) (args args' : Args) :
  (∀ k, k ∈ keysRead h → args.[k] = args'.[k]) →
  callText (heap h) args = callText (heap h) args'.
Proof.
  intros Hk. destruct h; expose_text;
    repeat match goal with
    | |- context [index args ?k] =>
        rewrite (Hk k) by (apply (bool_decide_unpack _); by vm_compute)
    end; reflexivity.
Qed.

(** X4: the text of a warnable depends on the args only through the keys
    listed for it: args that read the same at those keys give the same
    text, whatever else they hold. *)
Theorem Text_reads_only_keysRead (h : handle) (args args' : Args) :
  (∀ k, k ∈ keysRead h → args.[k] = args'.[k]) →
  callText (heap h) args = callText (heap h) args'.
Proof. apply callText_frame. Qed.

(** X5: the warnables whose text ignores the args altogether are exactly
    the six built with [StaticMessage]; every other text changes with some
    arg. *)
Theorem Text_constant_iff_static (h : handle) :
  (∀ args args', callText (heap h) args = callText (heap h) args')
  ↔ h ∈ [ unstableWarnable; NetworkStatusWarnable; IPNStateWarnable;
          notInMapPollWarnable; noDERPHomeWarnable; noUDP4BindWarnable ].
Proof.
  split.
  - intros Hconst.
    destruct h; try (apply (bool_decide_unpack _); by vm_compute); exfalso.
    all: try (specialize (Hconst ∅ {[ArgError := "x"]});
              vm_compute in Hconst; discriminate Hconst).
    all: try (specialize (Hconst ∅ {[ArgCurrentVersion := "x"]});
              vm_compute in Hconst; discriminate Hconst).
    all: try (specialize (Hconst ∅ {[ArgDuration := "x"]});
              vm_compute in Hconst; discriminate Hconst).
    all: try (specialize (Hconst ∅ {[ArgDERPRegionName := "x"]});
              vm_compute in Hconst; discriminate Hconst).
    all: try (specialize (Hconst ∅ {[ArgMagicsockFunctionName := "x"]});
              vm_compute in Hconst; discriminate Hconst).
    specialize (Hconst ∅ (<[ArgError := "x"]> ∅)). revert Hconst. expose_text.
    rewrite index_insert_eq, index_insert_ne, !index_empty by done.
    change (fmt.Sprintf Quote _ [""; ""])
      with ("Tailscale could not establish an encrypted connection with '"
            +:+ (Quote "" +:+ "': ")).
    change (fmt.Sprintf Quote _ [""; "x"])
      with ("Tailscale could not establish an encrypted connection with '"
            +:+ (Quote "" +:+ "': x")).
    intros [= Heq]. by do 2 apply append_inj_r in Heq.
  - intros Hin args args'. apply callText_frame. intros k Hk.
    destruct h; try (by apply elem_of_nil in Hk);
      apply (bool_decide_pack _) in Hin; by vm_compute in Hin.
Qed.

(** The last step of [Text_surfaces_values]: find the operand among those of
    the [Sprintf] call and check that its verb is [%s] or [%v]. *)
Ltac surfaced :=
  first
    [ apply Contains_refl
    | eapply (Sprintf_Contains _ _ _ 0);
        [by vm_compute|reflexivity|reflexivity|by vm_compute]
    | eapply (Sprintf_Contains _ _ _ 1);
        [by vm_compute|reflexivity|reflexivity|by vm_compute]
    | eapply (Sprintf_Contains _ _ _ 2);
        [by vm_compute|reflexivity|reflexivity|by vm_compute] ].

(** X6: a text shows the value of every key it reads, verbatim: the value
    is part of the rendered string.  The two exceptions are the server name
    of [tlsConnectionFailedWarnable], which is printed quoted, and the
    region ID where a non-empty region name replaces it. *)
Theorem Text_surfaces_values (h : handle) (k : Arg) (args : Args) :
  k ∈ keysRead h →
  (h = tlsConnectionFailedWarnable → k ≠ ArgServerName) →
  (k = ArgDERPRegionID →
   h = derpRegionErrorWarnable ∨ args.[ArgDERPRegionName] = "") →
  ∃ s, callText (heap h) args = Some s ∧ Strings.Contains s args.[k] = true.
Proof.
  intros Hin Htls Hid.
  destruct h; cbn [keysRead] in Hin;
    repeat (apply elem_of_cons in Hin as [->|Hin]);
    try (by apply elem_of_nil in Hin);
    try (by destruct Htls);
    expose_text;
    try match goal with
        | |- context [negb (String.eqb ?e "")] =>
            destruct (String.eqb_spec e "") as [He|He]
        end;
    cbn [negb]; (eexists; split; [reflexivity|]);
    try (rewrite He; apply Contains_empty);
    try surfaced.
  all: by destruct (Hid eq_refl).
Qed.

(** X7: with operands free of percent signs (and a [Quote] that adds
    none), no text of the catalog holds a percent sign, so none holds one of
    the [%!] markers by which [fmt] reports a missing operand, an extra
    operand or a bad verb: every format of the catalog has one string verb
    per operand. *)
Theorem Text_no_format_error (h : handle) (args : Args) :
  (∀ s, Strings.noPercent s = true → Strings.noPercent (Quote s) = true) →
  (∀ k v, args !! k = Some v → Strings.noPercent v = true) →
  ∃ s, callText (heap h) args = Some s
     ∧ Strings.noPercent s = true ∧ Strings.Contains s "%!" = false.
Proof.
  intros HQ Hargs.
  assert (∃ s, callText (heap h) args = Some s ∧ Strings.noPercent s = true)
    as (s & Hs & Hfree); [|by eauto using noPercent_no_marker].
  destruct h; expose_text; try destruct (negb _);
    (eexists; split; [reflexivity|]);
    first
      [ by vm_compute
      | by apply noPercent_index
      | apply Sprintf_noPercent;
          [done|by vm_compute|done|repeat constructor; by apply noPercent_index] ].
Qed.

(** X8: [testWarnable] is the only warnable of the catalog whose text can
    be empty. *)
Theorem Text_nonempty (h : handle) (args : Args) :
  h ≠ testWarnable → ∃ s, callText (heap h) args = Some s ∧ s ≠ "".
Proof.
  intros Hh. destruct h; try done; expose_text; try destruct (negb _);
    (eexists; split; [reflexivity|]); rewrite ?Sprintf_lit by done; done.
Qed.

End TextFacts.

(** ** More about the engine on the catalog *)

Section EngineMore.
Context {ptr : Type} `{Countable ptr}.
Variable deref : ptr → Warnable ptr.

Local Abbreviation entry := (ptr * ActiveWarning)%type.
Local Abbreviation visibleWarning := (@VisibleWarning ptr).

(** What the visible sequence holds: the survivors, each with the severity
    and the connectivity flag of its warnable. *)
Lemma presented_fields (l : list entry) (vs : list visibleWarning) :
  Forall2 (λ e v, present deref e = Some v) l vs →
  vHandle <$> vs = l.*1
  ∧ Forall (λ v, vSeverity v = Severity (deref (vHandle v))
               ∧ impactsConnectivity v = ImpactsConnectivity (deref (vHandle v))) vs.
Proof.
  induction 1 as [|e v l vs (Hh & Hs & Hc & _)%present_Some _ [IHh IHf]];
    [done|]. split.
  - rewrite !fmap_cons. by f_equal.
  - constructor; [|done]. by rewrite Hh.
Qed.

Lemma visibleWith_fields expand (snap : list entry) (vs : list visibleWarning) :
  visibleWith deref expand snap = Some vs →
  vHandle <$> vs ≡ₚ (survivors expand snap).*1
  ∧ Forall (λ v, vSeverity v = Severity (deref (vHandle v))
               ∧ impactsConnectivity v = ImpactsConnectivity (deref (vHandle v))) vs.
Proof.
  intros [Hh Hf]%mapM_Some_1%presented_fields. split; [|done].
  by rewrite Hh, merge_sort_Permutation.
Qed.

Lemma snapshot_keys (s : gmap ptr ActiveWarning) (w : ptr) :
  w ∈ (snapshot s).*1 ↔ is_Some (s !! w).
Proof.
  unfold snapshot. rewrite list_elem_of_fmap. split.
  - intros ([w' a] & -> & Ha%elem_of_map_to_list). by eexists.
  - intros [a Ha]. exists (w, a). by rewrite elem_of_map_to_list.
Qed.

Lemma survivors_keys expand (snap : list entry) (w : ptr) :
  w ∈ (survivors expand snap).*1
  ↔ w ∈ snap.*1 ∧ suppressedBy expand snap w = false.
Proof.
  unfold survivors. rewrite !list_elem_of_fmap. split.
  - intros (e & -> & [Hs He]%list_elem_of_filter). split; [by exists e|done].
  - intros [(e & -> & He) Hs]. exists e. by rewrite list_elem_of_filter.
Qed.

(** One visible warning of the highest severity that impacts connectivity
    decides both aggregates. *)
Lemma aggregate_top (vs : list visibleWarning) (v : visibleWarning) :
  v ∈ vs → vSeverity v = SeverityHigh → impactsConnectivity v = true →
  aggregate vs = (Level SeverityHigh, true).
Proof.
  intros Hv Hsev Hconn.
  assert (vs ≠ []) as Hne by (by intros ->; apply elem_of_nil in Hv).
  destruct (aggregate_max vs Hne) as (m & _ & Hagg & Hmax).
  pose proof (proj2 (aggregate_connectivity vs) (ex_intro _ v (conj Hv Hconn))) as Hc.
  specialize (Hmax v Hv). rewrite Hsev in Hmax.
  assert (vSeverity m = SeverityHigh) as Hm
    by (destruct (vSeverity m); simpl in Hmax; by try lia).
  rewrite Hm in Hagg. destruct (aggregate vs) as [o b]. simpl in *. by subst.
Qed.

End EngineMore.

Section CatalogMore.
Variable Quote : string → string.

Local Abbreviation heap := (deref Quote).

Lemma suppressed_iff (snap : list (handle * ActiveWarning)) (h : handle) :
  suppressedBy (directDeps heap) snap h = true
  ↔ DependsOn (heap h) ≠ [] ∧ NetworkStatusWarnable ∈ snap.*1.
Proof.
  unfold suppressedBy, directDeps.
  destruct (directDeps_shape Quote h) as [-> | ->]; simpl.
  - split; [done|]. by intros [[] _].
  - rewrite orb_false_r. unfold isActive. rewrite bool_decide_eq_true.
    split; [done|]. by intros [_ ?].
Qed.

(** X9: every dependency declared in the catalog is on a warnable that has
    no dependency of its own, has the highest severity and impacts
    connectivity; so a warnable never outranks the one that suppresses it,
    neither in severity nor in connectivity impact. *)
Theorem dependency_dominates (w d : handle) :
  dependsOn heap w d →
  DependsOn (heap d) = []
  ∧ Severity (heap d) = SeverityHigh
  ∧ ImpactsConnectivity (heap d) = true
  ∧ (rank (Severity (heap w)) ≤ rank (Severity (heap d)))%nat
  ∧ (ImpactsConnectivity (heap w) = true → ImpactsConnectivity (heap d) = true).
Proof.
  intros ->%dependsOn_target. split_and!; try done.
  destruct w; simpl; lia.
Qed.

(** X10: in every state the visible warnings are the active ones, minus
    those with a dependency while [NetworkStatusWarnable] is active. *)
Theorem visible_characterised (s : gmap handle ActiveWarning) :
  ∃ vs, activeWarnings heap s = Some vs
      ∧ ∀ h, h ∈ vHandle <$> vs
             ↔ is_Some (s !! h)
               ∧ (is_Some (s !! NetworkStatusWarnable) → DependsOn (heap h) = []).
Proof.
  destruct (visibleWith_is_Some heap (directDeps heap) (snapshot s)
              (catalog_Text_set Quote)) as [vs Hvs].
  exists vs. split; [done|]. intros h.
  apply visibleWith_fields in Hvs as [-> _].
  rewrite survivors_keys, !snapshot_keys, <-not_true_iff_false, suppressed_iff.
  rewrite snapshot_keys.
  destruct (directDeps_shape Quote h) as [-> | ->].
  - split; intros [Hh _]; (split; [done|]); [done|]. by intros [[] _].
  - split; intros [Hh Hroot]; (split; [done|]).
    + intros Hns. destruct Hroot. by split.
    + intros [_ Hns]. by specialize (Hroot Hns).
Qed.

(** X11: suppression never changes the aggregates: the overall severity
    and the connectivity flag computed from the visible warnings are those
    computed from all active warnings. *)
Theorem suppression_keeps_aggregate (s : gmap handle ActiveWarning) :
  ∃ vs all,
    activeWarnings heap s = Some vs
    ∧ visibleWith heap (λ _, []) (snapshot s) = Some all
    ∧ aggregate vs = aggregate all.
Proof.
  destruct (visibleWith_is_Some heap (directDeps heap) (snapshot s)
              (catalog_Text_set Quote)) as [vs Hvs].
  destruct (visibleWith_is_Some heap (λ _, []) (snapshot s)
              (catalog_Text_set Quote)) as [all Hall].
  exists vs, all. split_and!; [done..|].
  destruct (decide (NetworkStatusWarnable ∈ (snapshot s).*1)) as [Hroot|Hroot].
  - assert (∀ expand l,
      expand NetworkStatusWarnable = [] →
      visibleWith heap expand (snapshot s) = Some l →
      aggregate l = (Level SeverityHigh, true)) as Htop.
    { intros expand l Hexp [Hh Hf]%visibleWith_fields.
      assert (NetworkStatusWarnable ∈ vHandle <$> l) as Hin.
      { rewrite Hh, survivors_keys. split; [done|].
        unfold suppressedBy. by rewrite Hexp. }
      apply list_elem_of_fmap in Hin as (v & Hv & Hin).
      rewrite Forall_forall in Hf. destruct (Hf v Hin) as [Hs Hc].
      rewrite <-Hv in Hs, Hc. by eapply aggregate_top. }
    by rewrite (Htop _ vs eq_refl Hvs), (Htop _ all eq_refl Hall).
  - assert (survivors (directDeps heap) (snapshot s)
            = survivors (λ _, []) (snapshot s)) as Hsame.
    { apply list_filter_iff. intros e. simpl.
      rewrite <-not_true_iff_false, suppressed_iff.
      split; [done|]. by intros _ [_ ?]. }
    unfold activeWarnings, visible, visibleWith in Hvs, Hall.
    rewrite Hsame, Hall in Hvs. by injection Hvs as ->.
Qed.

(** X12: every [Code] is a non-empty string of lower-case letters, digits
    and hyphens, and every [Title] is non-empty. *)
Theorem Code_wellformed (h : handle) :
  Code (heap h) ≠ ""
  ∧ Strings.allBytes Strings.isKebab (Code (heap h)) = true
  ∧ Title (heap h) ≠ "".
Proof. destruct h; split_and!; by vm_compute. Qed.

(** X13: no two warnables of the catalog share a [Title]. *)
Theorem Title_unique : NoDup ((λ h, Title (heap h)) <$> catalog).
Proof.
  apply NoDup_fmap_2_strong; [|apply catalog_NoDup].
  intros h1 h2 _ _. by destruct h1, h2.
Qed.

End CatalogMore.

(** ** More instances *)

Lemma Text_reads_only_keysRead_witness :
  (∀ k, k ∈ keysRead mapResponseTimeoutWarnable →
        ({[ArgDuration := "5s"]} : gmap string string).[k]
        = (<[ArgError := "boom"]> {[ArgDuration := "5s"]} : gmap string string).[k])
  ∧ callText (deref fmt.QuoteASCII mapResponseTimeoutWarnable) {[ArgDuration := "5s"]}
    = callText (deref fmt.QuoteASCII mapResponseTimeoutWarnable)
        (<[ArgError := "boom"]> {[ArgDuration := "5s"]}).
Proof.
  assert (∀ k, k ∈ keysRead mapResponseTimeoutWarnable →
            ({[ArgDuration := "5s"]} : gmap string string).[k]
            = (<[ArgError := "boom"]> {[ArgDuration := "5s"]} : gmap string string).[k])
    as Hk by (intros k ->%list_elem_of_singleton; by vm_compute).
  split; [exact Hk|].
  exact (Text_reads_only_keysRead fmt.QuoteASCII _ _ _ Hk).
Defined.

Lemma Text_surfaces_values_witness :
  ArgError ∈ keysRead derpRegionErrorWarnable
  ∧ (derpRegionErrorWarnable = tlsConnectionFailedWarnable → ArgError ≠ ArgServerName)
  ∧ (ArgError = ArgDERPRegionID →
     derpRegionErrorWarnable = derpRegionErrorWarnable
     ∨ ({[ArgError := "boom"]} : gmap string string).[ArgDERPRegionName] = "")
  ∧ ∃ s, callText (deref fmt.QuoteASCII derpRegionErrorWarnable) {[ArgError := "boom"]}
         = Some s
       ∧ Strings.Contains s ({[ArgError := "boom"]} : gmap string string).[ArgError] = true.
Proof.
  assert (ArgError ∈ keysRead derpRegionErrorWarnable) as Hin
    by (apply (bool_decide_unpack _); by vm_compute).
  assert (derpRegionErrorWarnable = tlsConnectionFailedWarnable →
          ArgError ≠ ArgServerName) as Htls by discriminate.
  assert (ArgError = ArgDERPRegionID →
          derpRegionErrorWarnable = derpRegionErrorWarnable
          ∨ ({[ArgError := "boom"]} : gmap string string).[ArgDERPRegionName] = "")
    as Hid by (intros _; by left).
  split_and!; [exact Hin|exact Htls|exact Hid|].
  exact (Text_surfaces_values fmt.QuoteASCII _ _ _ Hin Htls Hid).
Defined.

Lemma Text_no_format_error_witness :
  (∀ s, Strings.noPercent s = true → Strings.noPercent (fmt.QuoteASCII s) = true)
  ∧ (∀ k v, ({[ArgServerName := "a.b"]} : gmap string string) !! k = Some v →
            Strings.noPercent v = true)
  ∧ ∃ s, callText (deref fmt.QuoteASCII tlsConnectionFailedWarnable)
           {[ArgServerName := "a.b"]} = Some s
       ∧ Strings.noPercent s = true ∧ Strings.Contains s "%!" = false.
Proof.
  assert (∀ k v, ({[ArgServerName := "a.b"]} : gmap string string) !! k = Some v →
            Strings.noPercent v = true) as Hargs
    by (intros k v [_ <-]%lookup_singleton_Some; by vm_compute).
  split_and!; [exact QuoteASCII_noPercent|exact Hargs|].
  exact (Text_no_format_error fmt.QuoteASCII tlsConnectionFailedWarnable _
           QuoteASCII_noPercent Hargs).
Defined.

Lemma Text_nonempty_witness :
  NetworkStatusWarnable ≠ testWarnable
  ∧ ∃ s, callText (deref fmt.QuoteASCII NetworkStatusWarnable) ∅ = Some s ∧ s ≠ "".
Proof.
  split; [discriminate|].
  apply (Text_nonempty fmt.QuoteASCII NetworkStatusWarnable ∅). discriminate.
Defined.

Lemma dependency_dominates_witness :
  dependsOn (deref fmt.QuoteASCII) noUDP4BindWarnable NetworkStatusWarnable
  ∧ (DependsOn (deref fmt.QuoteASCII NetworkStatusWarnable) = []
     ∧ Severity (deref fmt.QuoteASCII NetworkStatusWarnable) = SeverityHigh
     ∧ ImpactsConnectivity (deref fmt.QuoteASCII NetworkStatusWarnable) = true
     ∧ (rank (Severity (deref fmt.QuoteASCII noUDP4BindWarnable))
        ≤ rank (Severity (deref fmt.QuoteASCII NetworkStatusWarnable)))%nat
     ∧ (ImpactsConnectivity (deref fmt.QuoteASCII noUDP4BindWarnable) = true →
        ImpactsConnectivity (deref fmt.QuoteASCII NetworkStatusWarnable) = true)).
Proof.
  assert (dependsOn (deref fmt.QuoteASCII) noUDP4BindWarnable NetworkStatusWarnable)
    as Hdep by (unfold dependsOn; simpl; by left).
  split; [exact Hdep|].
  exact (dependency_dominates fmt.QuoteASCII _ _ Hdep).
Defined.

End health.
